(** * ZinChat: the device simulator and the WebSocket chat hub

    A shallow embedding of [zinchat/device_simulator.py] and of the
    connection handling of [zinchat/main.py], and the properties of the
    specification checked against it.

    Python values are modelled as follows.
    - A [str] is the list of its Unicode code points.
    - A [WebSocket] object is its identity, a natural number (Starlette's
      connection objects compare by identity, so [is], [in] and
      [list.remove] all compare identities).
    - The module-level list [connected_clients] is a list of identities.
    - The [random] module is a generator state threaded through the calls.
    - A coroutine runs until its next [await]; what the other tasks do
      while it is suspended is given by a schedule of events. *)

From Stdlib Require Import Ascii String DecimalString.
From stdpp Require Import base tactics decidable option numbers list strings gmap.

(** ** Python strings *)

Abbreviation codepoint := N (only parsing).
Abbreviation str := (list N) (only parsing).

(** An ASCII literal of the source, as code points. *)
Definition lit (s : string) : str :=
  N_of_ascii <$> list_ascii_of_string s.

(** U+27A4, the arrow of the two f-strings of [main.py]. *)
Definition ARROW : codepoint := 0x27a4%N.

(** [str.isspace] on one code point: the white space of the Unicode
    database (bidirectional type WS, B or S, or category Zs). *)
Definition isspace (c : codepoint) : bool :=
  ((9 <=? c) && (c <=? 13) || (28 <=? c) && (c <=? 32) ||
   (c =? 0x85) || (c =? 0xa0) || (c =? 0x1680) ||
   (0x2000 <=? c) && (c <=? 0x200a) ||
   (c =? 0x2028) || (c =? 0x2029) || (c =? 0x202f) || (c =? 0x205f) ||
   (c =? 0x3000))%N.

Fixpoint lstrip (s : str) : str :=
  match s with
  | [] => []
  | c :: s' => if isspace c then lstrip s' else s
  end.

Fixpoint rstrip (s : str) : str :=
  match s with
  | [] => []
  | c :: s' =>
      match rstrip s' with
      | [] => if isspace c then [] else [c]
      | t => c :: t
      end
  end.

(** [s.strip()] *)
Definition strip (s : str) : str := rstrip (lstrip s).

(** [s.startswith(prefix)] *)
Fixpoint startswith (s prefix : str) : bool :=
  match prefix, s with
  | [], _ => true
  | _ :: _, [] => false
  | p :: prefix', c :: s' => (c =? p)%N && startswith s' prefix'
  end.

Definition is_ascii (c : codepoint) : Prop := (c < 128)%N.

Definition ascii_lower (c : codepoint) : codepoint :=
  if ((65 <=? c) && (c <=? 90))%N then (c + 32)%N else c.

(** [str(n)] for an [int], as the f-strings render it. *)
Definition str_of_int (z : Z) : str :=
  lit (NilZero.string_of_int (Z.to_int z)).

(** [needle in haystack] on strings. *)
Fixpoint contains (haystack needle : str) : bool :=
  startswith haystack needle ||
  match haystack with
  | [] => false
  | _ :: h' => contains h' needle
  end.

(** ** The [random] module *)

(** The state of the generator: the raw numbers it is going to produce. *)
Abbreviation Rng := (list N) (only parsing).

(** [random.randint(a, b)]: an integer [n] with [a <= n <= b], drawn from
    the generator, whose state advances. *)
Definition randint (a b : Z) (g : Rng) : Z * Rng :=
  ((a + Z.of_N (hd 0%N g) `mod` (b - a + 1))%Z, tl g).

(** A Unicode table that leaves every code point from U+0080 on as it
    is; the closed examples at the end use it, on ASCII text. *)
Definition unfolded : str → nat → codepoint → str := λ _ _ c, [c].

Section Python.

(** [str.lower] folds the ASCII capitals as [ascii_lower] does and leaves
    the other ASCII characters alone. The lowercase form of a code point
    from U+0080 on is that of the interpreter's Unicode database; it may
    be several code points and, for a capital sigma, depends on the
    position in the string. It is a parameter of the development: given
    the whole string and the position, it yields the replacement. *)
Variable unicode_lower : str → nat → codepoint → str.

Fixpoint lower_from (whole : str) (i : nat) (s : str) : str :=
  match s with
  | [] => []
  | c :: s' =>
      (if (c <? 128)%N then [ascii_lower c] else unicode_lower whole i c)
        ++ lower_from whole (S i) s'
  end.

(** [s.lower()] *)
Definition lower (s : str) : str := lower_from s 0 s.

(** ** [device_simulator.py] *)

(** Lines 47-50 of [handle_command], "normalise and strip any prefix". *)
Definition normalise (command : str) : str :=
  let cmd := strip command in
  let cmd :=
    if startswith (lower cmd) (lit "/device")
    then drop (length (lit "/device")) cmd
    else cmd in
  lower (strip cmd).

(** Lines 53-63 of [handle_command], "dispatch based on recognised
    commands"; the generator state goes in and comes out. *)
Definition dispatch (cmd : str) (g : Rng) : str * Rng :=
  if decide (cmd = lit "status") then
    let '(value, g) := randint 0 100 g in
    (lit "Current sensor reading is " ++ str_of_int value ++ lit ".", g)
  else if decide (cmd = lit "start") then
    (lit "Device has been started.", g)
  else if decide (cmd = lit "stop") then
    (lit "Device has been stopped.", g)
  else if decide (cmd = []) then
    (lit "No command provided. Try '/device status'.", g)
  else
    (lit "Unknown device command: '" ++ cmd ++ lit "'.", g).

(** [DeviceSimulator.handle_command] *)
Definition handle_command (command : str) (g : Rng) : str * Rng :=
  dispatch (normalise command) g.

(** The sub-commands [dispatch] tells apart from an unknown one. *)
Definition recognised : list str :=
  [lit "status"; lit "start"; lit "stop"; []].

(** The sub-command as the user wrote it: the command without its prefix,
    trimmed, and not yet folded to lower case. *)
Definition subcommand (command : str) : str :=
  let cmd := strip command in
  strip (if startswith (lower cmd) (lit "/device")
         then drop (length (lit "/device")) cmd
         else cmd).

(** ** [main.py]: connections and the registry *)

(** A connection object, by identity. *)
Abbreviation WebSocket := nat (only parsing).

(** The only exception the module handles. *)
Inductive Exception := WebSocketDisconnect.

(** How a call ends. *)
Inductive Outcome := Returned | Raised (e : Exception).

(** The state the coroutines share. [closed] holds the connections whose
    peer is gone: a send to one of them raises. [wire] is the log of the
    text frames that reached a client, oldest first. *)
Record World := mkWorld {
  connected_clients : list WebSocket;
  closed : gset WebSocket;
  wire : list (WebSocket * str);
  rng : Rng
}.

Definition set_clients (l : list WebSocket) (w : World) : World :=
  mkWorld l (closed w) (wire w) (rng w).

Definition set_rng (g : Rng) (w : World) : World :=
  mkWorld (connected_clients w) (closed w) (wire w) g.

Definition close (c : WebSocket) (w : World) : World :=
  mkWorld (connected_clients w) ({[c]} ∪ closed w) (wire w) (rng w).

Definition deliver (c : WebSocket) (text : str) (w : World) : World :=
  mkWorld (connected_clients w) (closed w) (wire w ++ [(c, text)]) (rng w).

(** The state at import time: [connected_clients = []]. *)
Definition initial (g : Rng) : World := mkWorld [] ∅ [] g.

(** [await client.send_text(text)], as the loops meet it: the send to a
    connection whose peer is gone raises [WebSocketDisconnect]. (The
    framework raises it at the first such send and marks the connection;
    a further send to the same object would raise [RuntimeError], which
    no loop catches. The loop that catches the first one unregisters the
    connection at once, so a registry that holds each connection once
    sees no further send to it.) *)
Definition send_text (client : WebSocket) (text : str) (w : World)
  : Outcome * World :=
  if decide (client ∈ closed w)
  then (Raised WebSocketDisconnect, w)
  else (Returned, deliver client text w).

(** [l.remove(x)]: the first entry equal to [x] goes; [None] stands for
    the [ValueError] of an absent [x]. *)
Fixpoint remove (x : WebSocket) (l : list WebSocket) : option (list WebSocket) :=
  match l with
  | [] => None
  | y :: l' => if decide (x = y) then Some l' else cons y <$> remove x l'
  end.

(** [if client in connected_clients: connected_clients.remove(client)].
    The test guards the call, so the [ValueError] does not arise. *)
Definition discard (client : WebSocket) (w : World) : World :=
  if decide (client ∈ connected_clients w) then
    match remove client (connected_clients w) with
    | Some l => set_clients l w
    | None => w
    end
  else w.

(** Lines 116-117, [await websocket.accept()] and the [append], for a
    connection the framework hands over: [accept] returns. What [accept]
    does with a connection that was accepted before is in [enter]. *)
Definition on_accept (websocket : WebSocket) (w : World) : Outcome * World :=
  (Returned, set_clients (connected_clients w ++ [websocket]) w).

(** Lines 136-138: the handler of [WebSocketDisconnect]. *)
Definition on_disconnect (websocket : WebSocket) (w : World) : World :=
  discard websocket w.

(** ** The other tasks *)

(** What another task does to the shared state while this one waits. *)
Inductive Event :=
  | Connect (c : WebSocket)
  | Disconnect (c : WebSocket)
  | PeerClose (c : WebSocket).

(** [Connect c]: a new session registers [c]. [Disconnect c]: the peer of
    [c] is gone and the session of [c] has run its handler. [PeerClose c]:
    the peer of [c] is gone and nobody has noticed yet. *)
Definition event (e : Event) (w : World) : World :=
  match e with
  | Connect c => (on_accept c w).2
  | Disconnect c => on_disconnect c (close c w)
  | PeerClose c => close c w
  end.

Definition events (es : list Event) (w : World) : World :=
  foldl (λ w e, event e w) w es.

(** One entry per [await]: the events that happen during it. After the
    last entry nothing else happens. *)
Abbreviation Schedule := (list (list Event)) (only parsing).

Definition suspend (sched : Schedule) (w : World) : World :=
  events (hd [] sched) w.

Definition is_connect (e : Event) : bool :=
  match e with Connect _ => true | _ => false end.

Definition connects (sched : Schedule) : nat :=
  length (filter (λ e, is_connect e = true) (concat sched)).

(** ** [main.py]: the session loop *)

(** Lines 128-135, [for client in connected_clients: ...]. The list
    iterator holds an index into the list itself: each round reads the
    entry at [i] of the list as it is then, and stops when [i] is past
    the end. *)
Fixpoint fanout (fuel : nat) (websocket : WebSocket) (broadcast_text : str)
    (i : nat) (sched : Schedule) (w : World) : option World :=
  match fuel with
  | 0 => None
  | S fuel =>
      match connected_clients w !! i with
      | None => Some w
      | Some client =>
          if decide (client = websocket)
          then fanout fuel websocket broadcast_text (S i) sched w
          else
            let '(r, w) := send_text client broadcast_text w in
            let w := suspend sched w in
            let w :=
              match r with
              | Returned => w
              | Raised WebSocketDisconnect => discard client w
              end in
            fanout fuel websocket broadcast_text (S i) (tl sched) w
      end
  end.

(** Rounds that are enough for the loop to end: one per entry and one per
    entry that may still be appended. *)
Definition rounds (sched : Schedule) (w : World) : nat :=
  S (length (connected_clients w) + connects sched).

(** Line 121: [data.strip().lower().startswith("/device")]. *)
Definition is_command (data : str) : bool :=
  startswith (lower (strip data)) (lit "/device").

(** Lines 121-135, the body of [while True] once [receive_text] has
    returned [data]. *)
Definition on_text (websocket : WebSocket) (data : str) (sched : Schedule)
    (w : World) : option (Outcome * World) :=
  if is_command data then
    let '(response, g) := handle_command data (rng w) in
    let w := set_rng g w in
    let '(r, w) :=
      send_text websocket (lit "Device " ++ [ARROW] ++ lit " " ++ response) w in
    Some (r, suspend sched w)
  else
    let broadcast_text := lit "User " ++ [ARROW] ++ lit " " ++ data in
    w ← fanout (rounds sched w) websocket broadcast_text 0 sched w;
    Some (Returned, w).

(** What [await websocket.receive_text()] yields. *)
Inductive Inbound :=
  | Text (data : str)
  | Gone.

(** Where a session is after a turn of its loop. *)
Inductive Session := Reading | Disconnected.

(** Lines 118-138: one turn of [while True] under its [try]. *)
Definition turn (websocket : WebSocket) (inbound : Inbound) (sched : Schedule)
    (w : World) : option (Session * World) :=
  match inbound with
  | Gone => Some (Disconnected, on_disconnect websocket w)
  | Text data =>
      '(r, w) ← on_text websocket data sched w;
      match r with
      | Returned => Some (Reading, w)
      | Raised WebSocketDisconnect => Some (Disconnected, on_disconnect websocket w)
      end
  end.

(** ** [main.py]: the periodic emitter *)

(** Lines 153-158, [for client in list(connected_clients): ...]: the
    iteration is over the copy. *)
Fixpoint emit (snapshot : list WebSocket) (message : str) (sched : Schedule)
    (w : World) : World :=
  match snapshot with
  | [] => w
  | client :: snapshot =>
      let '(r, w) := send_text client message w in
      let w := suspend sched w in
      let w :=
        match r with
        | Returned => w
        | Raised WebSocketDisconnect => discard client w
        end in
      emit snapshot message (tl sched) w
  end.

(** Lines 150-158: one pass of the body of [while True]; the first entry
    of the schedule is what happens during the sleep. *)
Definition device_sensor_broadcast (sched : Schedule) (w : World) : World :=
  let w := suspend sched w in
  let '(sensor_value, g) := randint 0 100 (rng w) in
  let w := set_rng g w in
  let message := lit "Sensor reading: " ++ str_of_int sensor_value in
  emit (connected_clients w) message (tl sched) w.

(** ** Traces of connections and disconnections *)

(** The registry after the events of a trace, from the empty list the
    module starts with. *)
Definition registry_after (tr : list Event) (g : Rng) : list WebSocket :=
  connected_clients (events tr (initial g)).

(** The connections a trace accepts, in order. *)
Definition accepted (tr : list Event) : list WebSocket :=
  omap (λ e, match e with Connect c => Some c | _ => None end) tr.

(** In the words of the specification: [c] has connected and has not
    disconnected since. *)
Definition live_after (tr : list Event) (c : WebSocket) : Prop :=
  ∃ pre post, tr = pre ++ (Connect c :: post) ∧ Disconnect c ∉ post.

(** A chat frame as the session loop formats it. *)
Definition chat_frame (data : str) (c : WebSocket) : WebSocket * str :=
  (c, lit "User " ++ [ARROW] ++ lit " " ++ data).

(** What one undisturbed run of the chat fan-out makes of the entries it
    has before it: the entries it leaves registered and the entries it
    sends to. The sender stays and gets nothing; a reachable entry stays
    and gets the message; an unreachable entry is removed, and then the
    index, moved on by one over a list that is one shorter, passes over
    the entry that followed, which stays without having been looked at. *)
Fixpoint passes (websocket : WebSocket) (gone : gset WebSocket)
    (l : list WebSocket) : list WebSocket * list WebSocket :=
  match l with
  | [] => ([], [])
  | c :: l' =>
      if decide (c = websocket) then
        let '(kept, sent) := passes websocket gone l' in (c :: kept, sent)
      else if decide (c ∈ gone) then
        match l' with
        | [] => ([], [])
        | d :: l'' =>
            let '(kept, sent) := passes websocket gone l'' in (d :: kept, sent)
        end
      else
        let '(kept, sent) := passes websocket gone l' in (c :: kept, c :: sent)
  end.

(** ** The framework's side of a connection *)

(** [WebSocketState] of Starlette. *)
Inductive WebSocketState := CONNECTING | CONNECTED | DISCONNECTED | RESPONSE.

#[global] Instance WebSocketState_eq_dec : EqDecision WebSocketState.
Proof. solve_decision. Defined.

(** The shared state with what the framework holds for every connection
    object: its [application_state], which says what the application has
    sent on it. An object the map does not hold is as its constructor
    left it, [CONNECTING]. *)
Record Server := mkServer {
  world : World;
  application_state : gmap WebSocket WebSocketState
}.

Definition state_of (websocket : WebSocket) (s : Server) : WebSocketState :=
  default CONNECTING (application_state s !! websocket).

(** The server at start: nothing registered, no connection seen. *)
Definition boot (g : Rng) : Server := mkServer (initial g) ∅.

(** How the entry of the endpoint ends: the loop is reached, or [accept]
    has raised [RuntimeError]; lines 116-117 are outside the [try], and
    the handler is for [WebSocketDisconnect] only. *)
Inductive Entry := Entered | RuntimeError.

(** [await websocket.accept()]: the accept message may be sent while the
    state is [CONNECTING], which then becomes [CONNECTED]; in every other
    state the framework's [send] raises [RuntimeError]. *)
Definition accept (websocket : WebSocket) (s : Server) : Entry * Server :=
  match state_of websocket s with
  | CONNECTING =>
      (Entered,
       mkServer (world s) (<[websocket := CONNECTED]> (application_state s)))
  | _ => (RuntimeError, s)
  end.

(** Lines 116-117 as the server runs them: line 117 is reached when
    [accept] has returned. *)
Definition enter (websocket : WebSocket) (s : Server) : Entry * Server :=
  match accept websocket s with
  | (Entered, s) =>
      (Entered, mkServer (on_accept websocket (world s)).2 (application_state s))
  | (RuntimeError, s) => (RuntimeError, s)
  end.

(** An event on the server: a connection comes in through [enter]; the
    others act on the shared state as before. *)
Definition served (e : Event) (s : Server) : Server :=
  match e with
  | Connect c => (enter c s).2
  | _ => mkServer (event e (world s)) (application_state s)
  end.

Definition serve (tr : list Event) (s : Server) : Server :=
  foldl (λ s e, served e s) s tr.


(** ** Strings: trimming and case folding *)

Lemma isspace_ascii_lower c : isspace (ascii_lower c) = isspace c.
Proof.
  unfold ascii_lower.
  destruct ((65 <=? c) && (c <=? 90))%N eqn:E; [|done].
  apply andb_true_iff in E as [E1%N.leb_le E2%N.leb_le].
  unfold isspace.
  repeat match goal with
  | |- context [(?a <=? ?b)%N] => destruct (N.leb_spec a b); try lia
  | |- context [(?a =? ?b)%N] => destruct (N.eqb_spec a b); try lia
  end; reflexivity.
Qed.

Lemma lstrip_nonspace c s : isspace c = false → lstrip (c :: s) = c :: s.
Proof. intros H. simpl. by rewrite H. Qed.

Lemma rstrip_cons_nonspace c s : isspace c = false → rstrip (c :: s) = c :: rstrip s.
Proof. intros H. simpl. rewrite H. by destruct (rstrip s). Qed.

Lemma rstrip_app_nonspace p r :
  Forall (λ c, isspace c = false) p → rstrip (p ++ r) = p ++ rstrip r.
Proof.
  induction 1 as [|c p Hc _ IH]; [done|].
  rewrite <- app_comm_cons, rstrip_cons_nonspace, IH; done.
Qed.

Lemma lstrip_rstrip s : lstrip (rstrip s) = rstrip (lstrip s).
Proof.
  induction s as [|c s IH]; [done|].
  destruct (isspace c) eqn:Hc.
  - simpl. rewrite Hc, <- IH. destruct (rstrip s); simpl; by rewrite ?Hc.
  - rewrite lstrip_nonspace, rstrip_cons_nonspace, lstrip_nonspace; done.
Qed.

Lemma rstrip_idemp s : rstrip (rstrip s) = rstrip s.
Proof.
  induction s as [|c s IH]; [done|].
  simpl. destruct (rstrip s) as [|d t] eqn:E.
  - destruct (isspace c) eqn:Hc; [done|]. simpl. by rewrite Hc.
  - change (rstrip (c :: d :: t)) with
      (match rstrip (d :: t) with [] => if isspace c then [] else [c] | u => c :: u end).
    by rewrite IH.
Qed.

Lemma strip_rstrip s : strip (rstrip s) = strip s.
Proof. unfold strip. by rewrite lstrip_rstrip, rstrip_idemp. Qed.

Lemma lstrip_fmap_lower s : lstrip (ascii_lower <$> s) = ascii_lower <$> lstrip s.
Proof.
  induction s as [|c s IH]; [done|].
  simpl. rewrite isspace_ascii_lower. by destruct (isspace c).
Qed.

Lemma rstrip_fmap_lower s : rstrip (ascii_lower <$> s) = ascii_lower <$> rstrip s.
Proof.
  induction s as [|c s IH]; [done|].
  rewrite fmap_cons. cbn [rstrip]. rewrite IH, isspace_ascii_lower.
  destruct (rstrip s); [by destruct (isspace c)|done].
Qed.

Lemma strip_fmap_lower s : strip (ascii_lower <$> s) = ascii_lower <$> strip s.
Proof. unfold strip. by rewrite lstrip_fmap_lower, rstrip_fmap_lower. Qed.

Lemma lstrip_ascii s : Forall is_ascii s → Forall is_ascii (lstrip s).
Proof.
  induction 1 as [|c s Hc Hs IH]; [done|].
  simpl. destruct (isspace c); [done|by constructor].
Qed.

Lemma rstrip_ascii s : Forall is_ascii s → Forall is_ascii (rstrip s).
Proof.
  induction 1 as [|c s Hc Hs IH]; [done|].
  simpl. destruct (rstrip s).
  - destruct (isspace c); by repeat constructor.
  - by constructor.
Qed.

Lemma strip_ascii s : Forall is_ascii s → Forall is_ascii (strip s).
Proof. intros. by apply rstrip_ascii, lstrip_ascii. Qed.

Lemma startswith_app p s : startswith (p ++ s) p = true.
Proof.
  induction p as [|c p IH]; [by destruct s|].
  simpl. by rewrite N.eqb_refl.
Qed.

Lemma lower_from_app whole i a b :
  lower_from whole i (a ++ b) =
  lower_from whole i a ++ lower_from whole (i + length a) b.
Proof.
  revert i. induction a as [|c a IH]; intros i; simpl.
  - by rewrite Nat.add_0_r.
  - rewrite IH, <- app_assoc. by replace (S i + length a) with (i + S (length a)) by lia.
Qed.

Lemma lower_from_ascii whole i s :
  Forall is_ascii s → lower_from whole i s = ascii_lower <$> s.
Proof.
  intros H. revert i. induction H as [|c s Hc Hs IH]; intros i; [done|].
  simpl. apply N.ltb_lt in Hc. by rewrite Hc, IH.
Qed.

Lemma lower_ascii s : Forall is_ascii s → lower s = ascii_lower <$> s.
Proof. apply lower_from_ascii. Qed.

Lemma ascii_lower_ascii c : is_ascii (ascii_lower c) → is_ascii c.
Proof.
  unfold is_ascii, ascii_lower.
  destruct ((65 <=? c) && (c <=? 90))%N eqn:E; [|done].
  apply andb_true_iff in E as [E1%N.leb_le E2%N.leb_le]. lia.
Qed.

Lemma fmap_lower_nonspace p :
  ascii_lower <$> p = lit "/device" → Forall (λ c, isspace c = false) p.
Proof.
  intros H. apply Forall_forall. intros c Hc.
  rewrite <- isspace_ascii_lower.
  assert (Hin : ascii_lower c ∈ lit "/device").
  { rewrite <- H. by apply list_elem_of_fmap_2. }
  revert Hin. generalize (ascii_lower c). intros d Hd.
  vm_compute in Hd. set_unfold. by destruct_or!; subst.
Qed.

Lemma fmap_lower_is_ascii p :
  ascii_lower <$> p = lit "/device" → Forall is_ascii p.
Proof.
  intros H. apply Forall_forall. intros c Hc.
  apply ascii_lower_ascii.
  assert (Hin : ascii_lower c ∈ lit "/device").
  { rewrite <- H. by apply list_elem_of_fmap_2. }
  revert Hin. generalize (ascii_lower c). intros d Hd.
  vm_compute in Hd. set_unfold. unfold is_ascii. destruct_or!; subst; lia.
Qed.

(** A command that starts with the prefix, in any case: the prefix goes
    once, and what follows is trimmed and folded. *)
Lemma normalise_prefixed p r :
  ascii_lower <$> p = lit "/device" → normalise (p ++ r) = lower (strip r).
Proof.
  intros Hp.
  assert (Hlen : length p = 7).
  { apply (f_equal length) in Hp. by rewrite length_fmap in Hp. }
  assert (Hstrip : strip (p ++ r) = p ++ rstrip r).
  { pose proof (fmap_lower_nonspace p Hp) as Hns.
    unfold strip. destruct p as [|c p]; [done|].
    rewrite <- app_comm_cons, lstrip_nonspace by (by inversion Hns).
    by rewrite app_comm_cons, rstrip_app_nonspace. }
  assert (Hlow : ∃ t, lower (p ++ rstrip r) = lit "/device" ++ t).
  { eexists. unfold lower. rewrite lower_from_app.
    rewrite lower_from_ascii by (by apply fmap_lower_is_ascii).
    by rewrite Hp. }
  destruct Hlow as [t Hlow].
  unfold normalise. rewrite Hstrip, Hlow, startswith_app.
  change (length (lit "/device")) with 7. rewrite <- Hlen, drop_app_length.
  by rewrite strip_rstrip.
Qed.

Lemma normalise_subcommand command : normalise command = lower (subcommand command).
Proof. reflexivity. Qed.

Lemma contains_middle a b c : contains (a ++ b ++ c) b = true.
Proof.
  induction a as [|x a IH].
  - assert (E : ∀ h, contains h b = startswith h b ||
        match h with [] => false | _ :: h' => contains h' b end)
      by (by intros []).
    by rewrite app_nil_l, E, startswith_app.
  - simpl. rewrite IH. apply orb_true_r.
Qed.

Lemma randint_range a b g : (a ≤ b)%Z → (a ≤ (randint a b g).1 ≤ b)%Z.
Proof.
  intros H. unfold randint. simpl.
  pose proof (Z.mod_pos_bound (Z.of_N (hd 0%N g)) (b - a + 1)). lia.
Qed.

Lemma dispatch_status g :
  dispatch (lit "status") g =
  (lit "Current sensor reading is " ++ str_of_int (randint 0 100 g).1 ++ lit ".",
   tl g).
Proof. reflexivity. Qed.

Lemma dispatch_unknown cmd g :
  cmd ∉ recognised →
  dispatch cmd g = (lit "Unknown device command: '" ++ cmd ++ lit "'.", g).
Proof.
  intros H. unfold recognised in H. unfold dispatch.
  repeat (case_decide; [set_solver|]). done.
Qed.

(** ** The device simulator *)

(** C7: for the recognised sub-commands, bare or behind the prefix:
    [status] answers with a reading that is an integer of [0, 100];
    [start] and [stop] answer exactly "Device has been started." and
    "Device has been stopped."; the empty input answers with the usage
    hint; [foo] answers with a message that contains "foo" and says the
    command is unknown. *)
Theorem handle_command_recognised (g : Rng) :
  (∃ value : Z, (0 ≤ value ≤ 100)%Z ∧
     (handle_command (lit "status") g).1 =
       lit "Current sensor reading is " ++ str_of_int value ++ lit "." ∧
     (handle_command (lit "/device status") g).1 =
       lit "Current sensor reading is " ++ str_of_int value ++ lit ".") ∧
  (handle_command (lit "start") g).1 = lit "Device has been started." ∧
  (handle_command (lit "/device start") g).1 = lit "Device has been started." ∧
  (handle_command (lit "stop") g).1 = lit "Device has been stopped." ∧
  (handle_command (lit "/device stop") g).1 = lit "Device has been stopped." ∧
  (handle_command [] g).1 = lit "No command provided. Try '/device status'." ∧
  (handle_command (lit "/device") g).1 =
    lit "No command provided. Try '/device status'." ∧
  (handle_command (lit "foo") g).1 = lit "Unknown device command: 'foo'." ∧
  (handle_command (lit "/device foo") g).1 = lit "Unknown device command: 'foo'." ∧
  contains (handle_command (lit "foo") g).1 (lit "foo") = true ∧
  contains (handle_command (lit "foo") g).1 (lit "Unknown device command") = true.
Proof.
  split.
  - exists (randint 0 100 g).1. split; [by apply randint_range|].
    unfold handle_command.
    change (normalise (lit "status")) with (lit "status").
    change (normalise (lit "/device status")) with (lit "status").
    by rewrite dispatch_status.
  - repeat split; vm_compute; reflexivity.
Qed.

(** C8, as the code has it: for every command whose normalised text is
    not [status], [start], [stop] or empty, the answer is
    "Unknown device command: '...'." around the sub-command trimmed and
    folded to lower case, and the generator is not touched; behind a
    prefix, in any case, the echoed text is the rest of the command,
    trimmed and folded. *)
Theorem unknown_command_echo (command : str) (g : Rng) :
  normalise command ∉ recognised →
  handle_command command g =
    (lit "Unknown device command: '" ++ lower (subcommand command) ++ lit "'.", g) ∧
  contains (handle_command command g).1 (lower (subcommand command)) = true ∧
  (∀ p r, command = p ++ r → ascii_lower <$> p = lit "/device" →
     lower (subcommand command) = lower (strip r)).
Proof.
  intros H. unfold handle_command. rewrite dispatch_unknown by done.
  rewrite normalise_subcommand. split; [done|]. split.
  - apply contains_middle.
  - intros p r -> Hp. rewrite <- normalise_subcommand. by apply normalise_prefixed.
Qed.

(** C9, as the code has it: the answer is a function of the command and,
    for [status] alone, of one draw of the shared generator. A command
    that does not normalise to [status] leaves the generator as it was
    and gets the same answer at every call; a [status] command takes one
    draw and answers with it. *)
Theorem handle_command_draws_for_status_only (command : str) (g1 g2 : Rng) :
  (normalise command ≠ lit "status" →
     (handle_command command g1).1 = (handle_command command g2).1 ∧
     (handle_command command g1).2 = g1) ∧
  (normalise command = lit "status" →
     handle_command command g1 =
       (lit "Current sensor reading is " ++
          str_of_int (Z.of_N (hd 0%N g1) `mod` 101) ++ lit ".", tl g1)).
Proof.
  unfold handle_command. split.
  - intros H. unfold dispatch. rewrite !decide_False by done.
    by repeat case_decide.
  - intros ->. by rewrite dispatch_status.
Qed.

Lemma normalise_ascii s :
  Forall is_ascii s →
  normalise s =
    let t := strip (ascii_lower <$> s) in
    strip (if startswith t (lit "/device") then drop (length (lit "/device")) t else t).
Proof.
  intros Hs. unfold normalise. cbv zeta.
  pose proof (strip_ascii s Hs) as Hss.
  rewrite (lower_ascii (strip s)), <- strip_fmap_lower by done.
  destruct (startswith (strip (ascii_lower <$> s)) (lit "/device")).
  - rewrite lower_ascii by (by apply strip_ascii, Forall_drop).
    by rewrite <- strip_fmap_lower, fmap_drop, <- strip_fmap_lower.
  - rewrite lower_ascii by (by apply strip_ascii).
    by rewrite <- !strip_fmap_lower.
Qed.

Lemma prefixed_not_recognised cmd :
  startswith cmd (lit "/device") = true → cmd ∉ recognised.
Proof.
  intros Hsw Hin. unfold recognised in Hin. set_unfold.
  destruct_or!; subst; vm_compute in Hsw; discriminate.
Qed.

(** C10: the prefix, in any case, is removed once, and the whole of what
    follows is trimmed and folded to lower case before dispatch; so two
    ASCII commands that differ in case only get the same answer
    ("/DEVICE START" starts the device), and a command whose rest begins
    with the prefix again is answered as unknown, the second prefix
    being part of the echoed text ("/device /device status"). *)
Theorem prefix_stripped_once_then_folded :
  (∀ p r, ascii_lower <$> p = lit "/device" →
     normalise (p ++ r) = lower (strip r)) ∧
  (∀ s1 s2 g, Forall is_ascii s1 → Forall is_ascii s2 →
     ascii_lower <$> s1 = ascii_lower <$> s2 →
     handle_command s1 g = handle_command s2 g) ∧
  (∀ g, handle_command (lit "/DEVICE START") g =
     (lit "Device has been started.", g)) ∧
  (∀ p r g, ascii_lower <$> p = lit "/device" →
     startswith (lower (strip r)) (lit "/device") = true →
     handle_command (p ++ r) g =
       (lit "Unknown device command: '" ++ lower (strip r) ++ lit "'.", g)) ∧
  (∀ g, handle_command (lit "/device /device status") g =
     (lit "Unknown device command: '/device status'.", g)).
Proof.
  split; [apply normalise_prefixed|]. split; [|split; [|split]].
  - intros s1 s2 g H1 H2 E. unfold handle_command.
    by rewrite !normalise_ascii, E.
  - intros g. vm_compute. reflexivity.
  - intros p r g Hp Hsw. unfold handle_command.
    rewrite normalise_prefixed by done.
    by apply dispatch_unknown, prefixed_not_recognised.
  - intros g. vm_compute. reflexivity.
Qed.

(** ** The session loop *)

Lemma wire_events es w : wire (events es w) = wire w.
Proof.
  revert w. induction es as [|e es IH]; intros w; [done|].
  unfold events in *. simpl. rewrite IH.
  destruct e; simpl; try done. unfold on_disconnect, discard.
  repeat case_match; done.
Qed.

Lemma wire_suspend sched w : wire (suspend sched w) = wire w.
Proof. apply wire_events. Qed.

Lemma wire_discard c w : wire (discard c w) = wire w.
Proof. unfold discard. by repeat case_match. Qed.

(** C2: a message that, trimmed and folded, begins with "/device" goes to
    the responder, which drops the prefix, trims and folds the rest and
    dispatches on it; the answer, behind "Device ➤ ", is sent to the
    connection the message came from, and no frame of this turn goes to
    any other connection. *)
Theorem command_reply_private (websocket : WebSocket) (data : str)
    (sched : Schedule) (w : World) :
  is_command data = true →
  ∃ st w',
    turn websocket (Text data) sched w = Some (st, w') ∧
    wire w' = wire w ++
      (if decide (websocket ∈ closed w) then []
       else [(websocket,
              lit "Device " ++ [ARROW] ++ lit " " ++
              (dispatch (lower (strip (drop (length (lit "/device")) (strip data))))
                 (rng w)).1)]) ∧
    (∀ frame, frame ∈ wire w' → frame ∈ wire w ∨ frame.1 = websocket).
Proof.
  intros Hcmd.
  assert (Hn : normalise data =
      lower (strip (drop (length (lit "/device")) (strip data)))).
  { unfold normalise. unfold is_command in Hcmd. by rewrite Hcmd. }
  unfold turn, on_text. rewrite Hcmd. unfold handle_command. rewrite Hn.
  destruct (dispatch _ (rng w)) as [response g] eqn:Hd.
  unfold send_text. simpl closed. simpl.
  case_decide as Hc; simpl.
  - eexists _, _. split; [done|].
    unfold on_disconnect. rewrite wire_discard, wire_suspend. simpl.
    rewrite app_nil_r. split; [done|]. by left.
  - eexists _, _. split; [done|].
    rewrite wire_suspend. simpl. split; [done|].
    intros frame [?| ->%list_elem_of_singleton]%elem_of_app; [by left|by right].
Qed.

(** ** The registry *)

Lemma remove_elem_of x l :
  x ∈ l → ∃ l1 l2, l = l1 ++ (x :: l2) ∧ (x ∉ l1) ∧ remove x l = Some (l1 ++ l2).
Proof.
  induction l as [|y l IH]; intros Hin; [by apply elem_of_nil in Hin|].
  simpl. case_decide as E.
  - subst y. exists [], l. split; [done|]. split; [apply not_elem_of_nil|done].
  - apply elem_of_cons in Hin as [|Hin]; [done|].
    destruct (IH Hin) as (l1 & l2 & -> & Hn & ->).
    exists (y :: l1), l2. split; [done|]. split; [|done].
    apply not_elem_of_cons. by split.
Qed.

Lemma filter_all {A} (P : A → Prop) `{∀ x, Decision (P x)} (l : list A) :
  (∀ x, x ∈ l → P x) → filter P l = l.
Proof.
  induction l as [|x l IH]; intros Hall; [done|].
  rewrite filter_cons_True by (apply Hall; left).
  f_equal. apply IH. intros y Hy. apply Hall. by right.
Qed.

Lemma clients_discard c w :
  NoDup (connected_clients w) →
  connected_clients (discard c w) = filter (λ x, x ≠ c) (connected_clients w).
Proof.
  intros Hnd. unfold discard. case_decide as Hin.
  - destruct (remove_elem_of _ _ Hin) as (l1 & l2 & E & Hn & ->). simpl.
    rewrite E in Hnd |- *.
    apply NoDup_app in Hnd as (_ & _ & [Hc _]%NoDup_cons).
    rewrite filter_app, filter_cons_False by (by intros ?).
    rewrite !filter_all; [done| |]; intros x Hx ->; done.
  - symmetry. apply filter_all. by intros x Hx ->.
Qed.

Lemma length_clients_discard c w :
  length (connected_clients (discard c w)) ≤ length (connected_clients w).
Proof.
  unfold discard. case_decide as Hin; [|done].
  destruct (remove_elem_of _ _ Hin) as (l1 & l2 & E & _ & ->). simpl.
  rewrite E, !length_app. simpl. lia.
Qed.

Lemma closed_discard c w : closed (discard c w) = closed w.
Proof. unfold discard. by repeat case_match. Qed.

Lemma rng_discard c w : rng (discard c w) = rng w.
Proof. unfold discard. by repeat case_match. Qed.

Lemma events_snoc tr e w : events (tr ++ [e]) w = event e (events tr w).
Proof. unfold events. by rewrite foldl_app. Qed.

Lemma live_after_snoc tr e c :
  live_after (tr ++ [e]) c ↔
  e = Connect c ∨ (live_after tr c ∧ e ≠ Disconnect c).
Proof.
  unfold live_after. split.
  - intros (pre & post & E & Hn).
    destruct post as [|e' post _] using rev_ind.
    + apply (app_inj_tail tr pre) in E as [_ ->]. by left.
    + rewrite app_comm_cons, app_assoc in E.
      apply app_inj_tail in E as [-> ->].
      apply not_elem_of_app in Hn as [Hn Hne]. right. split; [by eauto|].
      intros ->. apply Hne. by left.
  - intros [-> | [(pre & post & -> & Hn) Hne]].
    + exists tr, []. split; [done|]. apply not_elem_of_nil.
    + exists pre, (post ++ [e]). split; [by rewrite <- app_assoc|].
      apply not_elem_of_app. split; [done|].
      intros ?%list_elem_of_singleton. by subst.
Qed.

Lemma live_after_accepted tr c : live_after tr c → c ∈ accepted tr.
Proof.
  intros (pre & post & -> & _). unfold accepted.
  apply list_elem_of_omap. exists (Connect c). split; [|done].
  apply elem_of_app. right. by left.
Qed.

(** C5: when every accepted connection is a connection of its own (no
    identity is accepted twice), then after any finite sequence of
    connections and disconnections the registry holds exactly the
    connections that have connected and not disconnected since, each
    once. *)
Theorem registry_membership (tr : list Event) (g : Rng) :
  NoDup (accepted tr) →
  NoDup (registry_after tr g) ∧
  ∀ c, c ∈ registry_after tr g ↔ live_after tr c.
Proof.
  unfold registry_after.
  induction tr as [|e tr IH] using rev_ind; intros Hnd.
  - split; [constructor|]. intros c. split.
    + by intros ?%elem_of_nil.
    + intros (pre & post & E & _). by destruct pre.
  - unfold accepted in Hnd. rewrite omap_app in Hnd.
    apply NoDup_app in Hnd as (Hnd & Hfresh & _).
    destruct (IH Hnd) as [IHnd IHin]. clear IH.
    rewrite events_snoc.
    destruct e as [c'|c'|c']; simpl.
    + assert (Hc' : c' ∉ connected_clients (events tr (initial g))).
      { intros Hin%IHin%live_after_accepted.
        apply (Hfresh c' Hin). by left. }
      split.
      * apply NoDup_app. split; [done|]. split; [|apply NoDup_singleton].
        by intros x Hx ->%list_elem_of_singleton.
      * intros c. rewrite live_after_snoc, elem_of_app, list_elem_of_singleton, IHin.
        split; [intros [?| ->]; [right|left]; done|].
        intros [[= ->]|[? _]]; [by right|by left].
    + unfold on_disconnect. rewrite clients_discard by done. simpl.
      split; [by apply NoDup_filter|].
      intros c. rewrite live_after_snoc, list_elem_of_filter, IHin.
      split.
      * intros [Hne Hl]. right. split; [done|]. by intros [= ->].
      * intros [[=]|[Hl Hne]]. split; [|done]. by intros ->.
    + split; [done|]. intros c. rewrite live_after_snoc, IHin.
      split; [by intros ?; right|]. by intros [[=]|[? _]].
Qed.

(** ** The chat fan-out *)

Lemma suspend_nil w : suspend [] w = w.
Proof. reflexivity. Qed.

Lemma length_clients_events es w :
  length (connected_clients (events es w)) ≤
  length (connected_clients w) + length (filter (λ e, is_connect e = true) es).
Proof.
  induction es as [|e es IH] using rev_ind; [simpl; lia|].
  rewrite events_snoc, filter_app, length_app.
  destruct e as [c|c|c]; cbn [event].
  - rewrite filter_cons_True by done. simpl. rewrite length_app. simpl. lia.
  - unfold on_disconnect.
    pose proof (length_clients_discard c (close c (events es w))) as Hd.
    change (connected_clients (close c (events es w)))
      with (connected_clients (events es w)) in Hd. lia.
  - change (connected_clients (close c (events es w)))
      with (connected_clients (events es w)). lia.
Qed.

Lemma connects_cons es sched :
  connects (es :: sched) =
  length (filter (λ e, is_connect e = true) es) + connects sched.
Proof. unfold connects. simpl. by rewrite filter_app, length_app. Qed.

Lemma length_clients_suspend sched w :
  length (connected_clients (suspend sched w)) + connects (tl sched) ≤
  length (connected_clients w) + connects sched.
Proof.
  destruct sched as [|es sched]; [unfold suspend, connects; simpl; lia|].
  unfold suspend. simpl hd. simpl tl. rewrite connects_cons.
  pose proof (length_clients_events es w). lia.
Qed.

(** The loop ends: every round moves the index on, and the list grows
    only by the connections the schedule still holds. *)
Lemma fanout_terminates fuel websocket text i sched w :
  length (connected_clients w) + connects sched - i < fuel →
  is_Some (fanout fuel websocket text i sched w).
Proof.
  revert i sched w. induction fuel as [|fuel IH]; intros i sched w Hf; [lia|].
  simpl. destruct (connected_clients w !! i) as [client|] eqn:Hi; [|done].
  apply lookup_lt_Some in Hi.
  case_decide; [apply IH; lia|].
  unfold send_text. case_decide; apply IH.
  - pose proof (length_clients_suspend sched w).
    pose proof (length_clients_discard client (suspend sched w)). lia.
  - pose proof (length_clients_suspend sched (deliver client text w)) as Hs.
    simpl in Hs. lia.
Qed.

Lemma on_text_chat_returns websocket data sched w :
  is_command data = false →
  ∃ w', on_text websocket data sched w = Some (Returned, w').
Proof.
  intros Hc. unfold on_text. rewrite Hc.
  destruct (fanout_terminates (rounds sched w) websocket
              (lit "User " ++ [ARROW] ++ lit " " ++ data) 0 sched w) as [w' ->].
  { unfold rounds. lia. }
  by exists w'.
Qed.

(** A turn of the session loop always comes back. *)
Lemma turn_total websocket inbound sched w :
  is_Some (turn websocket inbound sched w).
Proof.
  destruct inbound as [data|]; [|done].
  unfold turn. destruct (is_command data) eqn:Hc.
  - unfold on_text. rewrite Hc.
    destruct (handle_command data (rng w)) as [response g].
    destruct (send_text _ _ _) as [[|[]] w']; done.
  - by destruct (on_text_chat_returns websocket data sched w Hc) as [w' ->].
Qed.

(** Whatever the other tasks do, the frames of one fan-out carry the
    text of the call and none of them goes to the sender. *)
Lemma fanout_wire fuel websocket text i sched w w' :
  fanout fuel websocket text i sched w = Some w' →
  ∃ new, wire w' = wire w ++ new ∧
    Forall (λ frame, frame.1 ≠ websocket ∧ frame.2 = text) new.
Proof.
  revert i sched w. induction fuel as [|fuel IH]; intros i sched w Hf; [done|].
  simpl in Hf. destruct (connected_clients w !! i) as [client|].
  - case_decide as Hself; [by eapply IH|].
    unfold send_text in Hf. case_decide.
    + apply IH in Hf as (new & -> & Hnew).
      exists new. by rewrite wire_discard, wire_suspend.
    + apply IH in Hf as (new & -> & Hnew).
      exists ((client, text) :: new). rewrite wire_suspend. simpl.
      rewrite <- app_assoc. split; [done|]. by constructor.
  - injection Hf as <-. exists []. by rewrite app_nil_r.
Qed.

(** With every registered peer reachable and no other task acting, the
    fan-out sends to the entries from [i] on, the sender left out. *)
Lemma fanout_quiet fuel websocket text i w :
  (∀ c, c ∈ connected_clients w → c ∉ closed w) →
  length (connected_clients w) - i < fuel →
  fanout fuel websocket text i [] w =
    Some (mkWorld (connected_clients w) (closed w)
            (wire w ++ ((λ c, (c, text)) <$>
                          filter (λ c, c ≠ websocket) (drop i (connected_clients w))))
            (rng w)).
Proof.
  revert i w. induction fuel as [|fuel IH]; intros i w Hopen Hf; [lia|].
  simpl. destruct (connected_clients w !! i) as [client|] eqn:Hi.
  - pose proof (lookup_lt_Some _ _ _ Hi) as Hlt.
    rewrite (drop_S _ _ _ Hi).
    case_decide as Hself.
    + rewrite filter_cons_False by (by intros ?).
      apply IH; [done|lia].
    + rewrite filter_cons_True by done.
      unfold send_text.
      rewrite decide_False by (by apply Hopen, list_elem_of_lookup_2 with i).
      rewrite suspend_nil. simpl tl.
      rewrite IH; [|done|simpl; lia]. simpl.
      by rewrite <- app_assoc.
  - apply lookup_ge_None_1 in Hi. rewrite drop_ge by done.
    destruct w. simpl. by rewrite app_nil_r.
Qed.

Lemma length_filter_others (websocket : nat) (l : list nat) :
  NoDup l → websocket ∈ l →
  length (filter (λ c, c ≠ websocket) l) = length l - 1.
Proof.
  intros Hnd (l1 & l2 & ->)%list_elem_of_split.
  apply NoDup_app in Hnd as (_ & Hl1 & [Hl2 _]%NoDup_cons).
  rewrite filter_app, filter_cons_False by (by intros ?).
  rewrite !filter_all.
  - rewrite !length_app. simpl. lia.
  - by intros x Hx ->.
  - intros x Hx ->. apply (Hl1 websocket Hx). by left.
Qed.

(** C1: a message that is not a command is sent as "User ➤ m". No frame
    of the call goes to the sender, whatever else happens. With [N]
    distinct connections registered, the sender among them, all of them
    reachable and no other task acting during the call, the frames go to
    the other N-1 connections, one frame each, and the registry is as
    before. *)
Theorem chat_reaches_all_but_sender (websocket : WebSocket) (data : str) :
  is_command data = false →
  (∀ sched w, ∃ w' new,
     turn websocket (Text data) sched w = Some (Reading, w') ∧
     wire w' = wire w ++ new ∧
     Forall (λ frame, frame.1 ≠ websocket ∧ frame = chat_frame data frame.1) new) ∧
  (∀ w, NoDup (connected_clients w) →
     websocket ∈ connected_clients w →
     (∀ c, c ∈ connected_clients w → c ∉ closed w) →
     let others := filter (λ c, c ≠ websocket) (connected_clients w) in
     ∃ w',
       turn websocket (Text data) [] w = Some (Reading, w') ∧
       wire w' = wire w ++ (chat_frame data <$> others) ∧
       connected_clients w' = connected_clients w ∧
       length others = length (connected_clients w) - 1 ∧
       NoDup others ∧
       ∀ c, c ∈ others ↔ c ∈ connected_clients w ∧ c ≠ websocket).
Proof.
  intros Hc. split.
  - intros sched w. unfold turn.
    destruct (on_text_chat_returns websocket data sched w Hc) as [w' Hw'].
    rewrite Hw'. simpl. unfold on_text in Hw'. rewrite Hc in Hw'.
    destruct (fanout _ _ _ _ _ _) as [w''|] eqn:Hf; [|done].
    injection Hw' as ->.
    apply fanout_wire in Hf as (new & Hw & Hnew).
    exists w', new. split; [done|]. split; [done|].
    eapply Forall_impl; [exact Hnew|].
    intros [c t] [? Ht]. simpl in *. split; [done|]. unfold chat_frame. by subst.
  - intros w Hnd Hin Hopen others. unfold turn, on_text. rewrite Hc.
    rewrite fanout_quiet by (done || unfold rounds; lia). simpl.
    rewrite drop_0. eexists. split; [done|]. simpl.
    split; [done|]. split; [done|].
    split; [by apply length_filter_others|].
    split; [by apply NoDup_filter|].
    intros c. unfold others. rewrite list_elem_of_filter. tauto.
Qed.

(** ** The periodic emitter *)

(** Whatever the other tasks do, the frames of one pass go to entries of
    the copy, in its order, at most one frame per entry: a connection
    registered after the copy was taken gets none of them. *)
Lemma emit_targets snapshot message sched w :
  ∃ new, wire (emit snapshot message sched w) = wire w ++ new ∧
    new.*1 `sublist_of` snapshot ∧
    Forall (λ frame, frame.2 = message) new.
Proof.
  revert sched w. induction snapshot as [|client snapshot IH]; intros sched w.
  - exists []. simpl. by rewrite app_nil_r.
  - simpl. unfold send_text. case_decide.
    + destruct (IH (tl sched) (discard client (suspend sched w)))
        as (new & -> & Hsub & Hmsg).
      exists new. rewrite wire_discard, wire_suspend.
      split; [done|]. split; [by apply sublist_cons|done].
    + destruct (IH (tl sched) (suspend sched (deliver client message w)))
        as (new & -> & Hsub & Hmsg).
      exists ((client, message) :: new). rewrite wire_suspend. simpl.
      rewrite <- app_assoc.
      split; [done|]. split; [by apply sublist_skip|by constructor].
Qed.

(** With no other task acting, a pass over the copy of the registry
    removes the unreachable entries, each of them and nothing else, and
    every reachable entry gets the message. *)
Lemma emit_quiet snapshot message done w :
  connected_clients w = done ++ snapshot →
  NoDup (done ++ snapshot) →
  let reachable := filter (λ c, c ∉ closed w) snapshot in
  emit snapshot message [] w =
    mkWorld (done ++ reachable) (closed w)
      (wire w ++ ((λ c, (c, message)) <$> reachable)) (rng w).
Proof.
  revert done w. induction snapshot as [|client snapshot IH];
    intros done w Hw Hnd reachable; unfold reachable; clear reachable.
  - destruct w. simpl in *. by rewrite filter_nil, Hw, !app_nil_r.
  - simpl emit. unfold send_text. case_decide as Hc.
    + rewrite filter_cons_False by (by intros ?).
      rewrite suspend_nil. simpl tl.
      pose proof Hnd as (Hnd1 & Hdone & [Hsn Hnd2]%NoDup_cons)%NoDup_app.
      assert (Hd : connected_clients (discard client w) = done ++ snapshot).
      { rewrite clients_discard, Hw by (by rewrite Hw).
        rewrite filter_app, filter_cons_False by (by intros ?).
        rewrite !filter_all; [done| |].
        - by intros x Hx ->.
        - intros x Hx ->. apply (Hdone client Hx). by left. }
      assert (Hnd' : NoDup (done ++ snapshot)).
      { apply NoDup_app. split; [done|]. split; [|done].
        intros x Hx Hs. apply (Hdone x Hx). by right. }
      rewrite (IH done _ Hd Hnd').
      by rewrite !closed_discard, wire_discard, rng_discard.
    + rewrite filter_cons_True by done.
      rewrite suspend_nil. simpl tl.
      rewrite (IH (done ++ [client])); simpl.
      * by rewrite <- !app_assoc.
      * by rewrite Hw, <- app_assoc.
      * by rewrite <- app_assoc.
Qed.

Lemma device_sensor_broadcast_quiet w :
  NoDup (connected_clients w) →
  let reachable := filter (λ c, c ∉ closed w) (connected_clients w) in
  let message :=
    lit "Sensor reading: " ++ str_of_int (randint 0 100 (rng w)).1 in
  connected_clients (device_sensor_broadcast [] w) = reachable ∧
  wire (device_sensor_broadcast [] w) =
    wire w ++ ((λ c, (c, message)) <$> reachable).
Proof.
  intros Hnd reachable message. unfold device_sensor_broadcast.
  rewrite suspend_nil. simpl tl.
  change (randint 0 100 (rng w)) with ((randint 0 100 (rng w)).1, tl (rng w)).
  cbv iota beta zeta.
  rewrite (emit_quiet _ _ []) by done. done.
Qed.

(** ** The chat fan-out on the list itself *)

(** C3 on the chat fan-out: with [1; 2; 3; 4] registered, the peer of 2
    gone, and 1 sending "hello", the send to 2 fails, the failure stays
    in the loop and 2 is removed; the entries behind it move down by one
    under the iterator, so 3, reachable and registered throughout, gets
    no frame. *)
Theorem chat_fanout_skips_after_failed_send :
  let w := mkWorld [1; 2; 3; 4] {[2]} [] [] in
  ∃ w',
    turn 1 (Text (lit "hello")) [] w = Some (Reading, w') ∧
    connected_clients w' = [1; 3; 4] ∧
    (3 ∉ closed w) ∧
    wire w' = [chat_frame (lit "hello") 4].
Proof.
  eexists. split; [vm_compute; reflexivity|].
  split; [done|]. split; [|done]. cbn. by intros ?%elem_of_singleton.
Qed.

(** C4 on the chat fan-out: the loop reads the registry itself at every
    round. A connection registered while the first send is in flight
    gets the message; a connection that leaves while the first send is
    in flight makes the loop pass over the entry behind it. *)
Theorem chat_fanout_iterates_live_list :
  (∃ w',
     turn 1 (Text (lit "hello")) [[Connect 9]] (mkWorld [1; 2; 3] ∅ [] []) =
       Some (Reading, w') ∧
     wire w' = chat_frame (lit "hello") <$> [2; 3; 9]) ∧
  (∃ w',
     turn 1 (Text (lit "hello")) [[Disconnect 2]] (mkWorld [1; 2; 3] ∅ [] []) =
       Some (Reading, w') ∧
     connected_clients w' = [1; 3] ∧
     wire w' = [chat_frame (lit "hello") 2]).
Proof.
  split; eexists; (split; [vm_compute; reflexivity|done]).
Qed.

(** ** More on the registry *)

Lemma remove_first x D S : x ∉ D → remove x (D ++ x :: S) = Some (D ++ S).
Proof.
  induction D as [|y D IH]; intros Hn; simpl.
  - by rewrite decide_True.
  - apply not_elem_of_cons in Hn as [Hne Hn].
    rewrite decide_False by done. by rewrite IH.
Qed.

Lemma discard_set_clients c w :
  discard c w = set_clients (connected_clients (discard c w)) w.
Proof. unfold discard. repeat case_match; by destruct w. Qed.

Lemma clients_discard_sublist c w :
  connected_clients (discard c w) `sublist_of` connected_clients w.
Proof.
  unfold discard. case_decide as Hin; [|done].
  destruct (remove_elem_of _ _ Hin) as (l1 & l2 & E & _ & ->). simpl.
  rewrite E. apply sublist_app; [done|]. by apply sublist_cons.
Qed.

Lemma clients_discard_keeps c x w :
  x ≠ c → x ∈ connected_clients w → x ∈ connected_clients (discard c w).
Proof.
  intros Hne Hx. unfold discard. case_decide as Hin; [|done].
  destruct (remove_elem_of _ _ Hin) as (l1 & l2 & E & _ & ->). simpl.
  rewrite E in Hx.
  apply elem_of_app in Hx as [?|[?|?]%elem_of_cons]; [|done|];
    apply elem_of_app; [by left|by right].
Qed.

(** X1: when the connection is registered, the guarded removal finds it
    ([list.remove] has no [ValueError] to raise) and takes out its first
    entry and nothing else: the entries before and behind it stay, in
    order, and the registry is one entry shorter. *)
Theorem discard_first_entry (client : WebSocket) (w : World) :
  client ∈ connected_clients w →
  ∃ l1 l2,
    connected_clients w = l1 ++ client :: l2 ∧ (client ∉ l1) ∧
    remove client (connected_clients w) = Some (l1 ++ l2) ∧
    discard client w = set_clients (l1 ++ l2) w ∧
    S (length (connected_clients (discard client w))) =
      length (connected_clients w).
Proof.
  intros Hin.
  destruct (remove_elem_of _ _ Hin) as (l1 & l2 & E & Hn & Hr).
  exists l1, l2. split; [done|]. split; [done|]. split; [done|].
  unfold discard. rewrite decide_True, Hr by done.
  split; [done|]. simpl. rewrite E, !length_app. simpl. lia.
Qed.

(** X2: registering a connection that is not yet registered and then
    running its disconnect handler gives back the state there was. *)
Theorem accept_then_disconnect (websocket : WebSocket) (w : World) :
  websocket ∉ connected_clients w →
  on_disconnect websocket (on_accept websocket w).2 = w.
Proof.
  intros Hn. unfold on_disconnect, on_accept, discard. simpl.
  rewrite decide_True by (apply elem_of_app; right; by left).
  rewrite remove_first by done. rewrite app_nil_r. by destruct w.
Qed.

(** X3: on a registry without duplicates the disconnect handler leaves
    the registry without the connection and with the other entries in
    their order, and a second removal of the same connection, by the
    handler or by a loop whose send to it failed, changes nothing. *)
Theorem disconnect_idempotent (websocket : WebSocket) (w : World) :
  NoDup (connected_clients w) →
  connected_clients (on_disconnect websocket w) =
    filter (λ c, c ≠ websocket) (connected_clients w) ∧
  (websocket ∉ connected_clients (on_disconnect websocket w)) ∧
  discard websocket (on_disconnect websocket w) = on_disconnect websocket w.
Proof.
  intros Hnd. unfold on_disconnect.
  assert (Hn : websocket ∉ connected_clients (discard websocket w)).
  { rewrite clients_discard by done.
    intros [Hne _]%list_elem_of_filter. by apply Hne. }
  split; [by apply clients_discard|]. split; [done|].
  unfold discard at 1. by rewrite decide_False.
Qed.

(** X4: whatever the trace, the registry lists connections in the order
    in which they were accepted: it is a sublist of the accepted
    connections, so nothing is registered that was not accepted. *)
Theorem registry_in_acceptance_order (tr : list Event) (g : Rng) :
  registry_after tr g `sublist_of` accepted tr.
Proof.
  unfold registry_after, accepted.
  induction tr as [|e tr IH] using rev_ind; [done|].
  rewrite events_snoc, omap_app.
  destruct e as [c|c|c]; simpl.
  - by apply sublist_app.
  - rewrite app_nil_r. unfold on_disconnect.
    etrans; [apply clients_discard_sublist|done].
  - by rewrite app_nil_r.
Qed.

(** ** More on the periodic emitter *)

Lemma rng_events es w : rng (events es w) = rng w.
Proof.
  induction es as [|e es IH] using rev_ind; [done|].
  rewrite events_snoc. destruct e; simpl; try done.
  unfold on_disconnect. by rewrite rng_discard.
Qed.

Lemma rng_emit snapshot message sched w :
  rng (emit snapshot message sched w) = rng w.
Proof.
  revert sched w. induction snapshot as [|c snapshot IH]; intros sched w; [done|].
  simpl. unfold send_text. case_decide; rewrite IH.
  - unfold suspend. by rewrite rng_discard, rng_events.
  - unfold suspend. by rewrite rng_events.
Qed.

(** X5: whatever the other tasks do, one pass of the emitter draws one
    reading [v] of [0, 100], sends nothing but "Sensor reading: v", and
    sends it to entries of the copy made after the sleep, in the order of
    the copy and at most once per entry; a connection registered later
    has to wait for the next pass. *)
Theorem sensor_pass_targets_snapshot (sched : Schedule) (w : World) :
  ∃ (value : Z) (new : list (WebSocket * str)),
    (0 ≤ value ≤ 100)%Z ∧
    wire (device_sensor_broadcast sched w) = wire w ++ new ∧
    new.*1 `sublist_of` connected_clients (suspend sched w) ∧
    Forall (λ frame, frame.2 = lit "Sensor reading: " ++ str_of_int value) new ∧
    rng (device_sensor_broadcast sched w) = tl (rng w).
Proof.
  unfold device_sensor_broadcast.
  remember (suspend sched w) as w0 eqn:Hw0.
  assert (Hr : rng w0 = rng w) by (subst w0; apply rng_events).
  assert (Hwire : wire w0 = wire w) by (subst w0; apply wire_suspend).
  pose proof (randint_range 0 100 (rng w0)) as Hrange.
  destruct (randint 0 100 (rng w0)) as [value g] eqn:Hv.
  cbv iota beta zeta.
  destruct (emit_targets (connected_clients (set_rng g w0))
              (lit "Sensor reading: " ++ str_of_int value)
              (tl sched) (set_rng g w0)) as (new & Hw & Hsub & Hmsg).
  exists value, new.
  split; [apply Hrange; lia|].
  split; [by rewrite Hw, <- Hwire|].
  split; [exact Hsub|]. split; [exact Hmsg|].
  rewrite rng_emit. unfold randint in Hv. injection Hv as _ <-.
  by rewrite <- Hr.
Qed.

Lemma emit_quiet_any snapshot message done w :
  connected_clients w = done ++ snapshot →
  (∀ c, c ∈ done → c ∉ closed w) →
  emit snapshot message [] w =
    mkWorld (done ++ filter (λ c, c ∉ closed w) snapshot) (closed w)
      (wire w ++ ((λ c, (c, message)) <$> filter (λ c, c ∉ closed w) snapshot))
      (rng w).
Proof.
  revert done w. induction snapshot as [|client snapshot IH]; intros done w Hw Hdone.
  - destruct w. simpl in *. by rewrite filter_nil, Hw, !app_nil_r.
  - simpl emit. unfold send_text. case_decide as Hc.
    + rewrite filter_cons_False by (by intros ?).
      rewrite suspend_nil. simpl tl.
      assert (Hd : discard client w = set_clients (done ++ snapshot) w).
      { unfold discard. rewrite decide_True by (rewrite Hw; apply elem_of_app; right; by left).
        rewrite Hw, remove_first; [done|]. intros Hin. by apply (Hdone client). }
      rewrite Hd. by rewrite (IH done).
    + rewrite filter_cons_True by done.
      rewrite suspend_nil. simpl tl.
      rewrite (IH (done ++ [client])); simpl.
      * by rewrite <- !app_assoc.
      * by rewrite Hw, <- app_assoc.
      * intros c [?| ->%list_elem_of_singleton]%elem_of_app; [by apply Hdone|done].
Qed.

(** X6: on a registry without duplicates and with no other task acting,
    one pass of the emitter sends to every entry once, leaves in the
    registry the reachable entries, in their order, and has sent every
    one of them the reading; every unreachable entry is gone. The set of
    closed peers is as before and the generator is one draw further. *)
Theorem sensor_pass_prunes_unreachable (w : World) :
  NoDup (connected_clients w) →
  let reachable := filter (λ c, c ∉ closed w) (connected_clients w) in
  let message :=
    lit "Sensor reading: " ++ str_of_int (randint 0 100 (rng w)).1 in
  device_sensor_broadcast [] w =
    mkWorld reachable (closed w)
      (wire w ++ ((λ c, (c, message)) <$> reachable)) (tl (rng w)).
Proof.
  intros _ reachable message. unfold device_sensor_broadcast.
  rewrite suspend_nil. simpl tl.
  change (randint 0 100 (rng w)) with ((randint 0 100 (rng w)).1, tl (rng w)).
  cbv iota beta zeta.
  rewrite (emit_quiet_any _ _ []); [done|done|].
  intros c []%elem_of_nil.
Qed.

(** ** More on the chat fan-out *)

Lemma fanout_more_fuel fuel websocket text i sched w w' :
  fanout fuel websocket text i sched w = Some w' →
  fanout (S fuel) websocket text i sched w = Some w'.
Proof.
  revert i sched w. induction fuel as [|fuel IH]; intros i sched w Hf; [done|].
  simpl in Hf. change (fanout (S (S fuel)) websocket text i sched w) with
    (match connected_clients w !! i with
     | None => Some w
     | Some client =>
         if decide (client = websocket)
         then fanout (S fuel) websocket text (S i) sched w
         else
           let '(r, w) := send_text client text w in
           let w := suspend sched w in
           let w :=
             match r with
             | Returned => w
             | Raised WebSocketDisconnect => discard client w
             end in
           fanout (S fuel) websocket text (S i) (tl sched) w
     end).
  destruct (connected_clients w !! i) as [client|]; [|done].
  case_decide; [by apply IH|].
  destruct (send_text client text w) as [[|[]] w1]; by apply IH.
Qed.

(** X7: the fan-out loop ends although it runs over a list that other
    tasks extend meanwhile: from index [i] it takes at most one round
    per entry that is there or is still to be registered during the
    call, and rounds beyond that do not change what it leaves. *)
Theorem fanout_ends (fuel more : nat) (websocket : WebSocket) (text : str)
    (i : nat) (sched : Schedule) (w : World) :
  length (connected_clients w) + connects sched - i < fuel →
  ∃ w',
    fanout fuel websocket text i sched w = Some w' ∧
    fanout (fuel + more) websocket text i sched w = Some w'.
Proof.
  intros Hf.
  destruct (fanout_terminates fuel websocket text i sched w Hf) as [w' Hw'].
  exists w'. split; [done|].
  induction more as [|more IH]; [by rewrite Nat.add_0_r|].
  rewrite Nat.add_succ_r. by apply fanout_more_fuel.
Qed.

Lemma fanout_quiet_prunes fuel websocket text i w w' :
  fanout fuel websocket text i [] w = Some w' →
  connected_clients w' `sublist_of` connected_clients w ∧
  closed w' = closed w ∧
  rng w' = rng w ∧
  ∀ c, c ∈ connected_clients w → c ∉ closed w → c ∈ connected_clients w'.
Proof.
  revert i w. induction fuel as [|fuel IH]; intros i w Hf; [done|].
  simpl in Hf. destruct (connected_clients w !! i) as [client|].
  - case_decide; [by eapply IH|].
    unfold send_text in Hf. case_decide as Hc.
    + rewrite suspend_nil in Hf. simpl tl in Hf.
      apply IH in Hf as (Hsub & Hcl & Hr & Hin).
      rewrite closed_discard in Hcl. rewrite rng_discard in Hr.
      split; [etrans; [exact Hsub|apply clients_discard_sublist]|].
      split; [done|]. split; [done|].
      intros c Hc1 Hc2. apply Hin; [|by rewrite closed_discard].
      apply clients_discard_keeps; [|done]. by intros ->.
    + rewrite suspend_nil in Hf. simpl tl in Hf.
      by apply IH in Hf.
  - by injection Hf as <-.
Qed.

(** X8: with no other task acting, a turn of the session loop on a text
    message, command or chat, registers nobody and unregisters only
    connections whose peer is gone: the registry afterwards is a sublist
    of the registry before and still holds every reachable entry. *)
Theorem quiet_turn_only_prunes (websocket : WebSocket) (data : str) (w : World) :
  ∃ st w',
    turn websocket (Text data) [] w = Some (st, w') ∧
    connected_clients w' `sublist_of` connected_clients w ∧
    closed w' = closed w ∧
    ∀ c, c ∈ connected_clients w → c ∉ closed w → c ∈ connected_clients w'.
Proof.
  unfold turn. destruct (is_command data) eqn:Hc.
  - unfold on_text. rewrite Hc.
    destruct (handle_command data (rng w)) as [response g].
    unfold send_text. simpl closed. case_decide as Hgone; rewrite suspend_nil.
    + eexists _, _. split; [done|]. unfold on_disconnect.
      split; [apply (clients_discard_sublist websocket (set_rng g w))|].
      split; [apply (closed_discard websocket (set_rng g w))|].
      intros c Hc1 Hc2.
      apply (clients_discard_keeps websocket c (set_rng g w)); [|done].
      by intros ->.
    + eexists _, _. split; [done|]. done.
  - destruct (on_text_chat_returns websocket data [] w Hc) as [w' Hw'].
    rewrite Hw'. simpl. exists Reading, w'. split; [done|].
    unfold on_text in Hw'. rewrite Hc in Hw'.
    destruct (fanout _ _ _ _ _ _) as [w''|] eqn:Hf; [|done].
    injection Hw' as ->.
    by apply fanout_quiet_prunes in Hf as (? & ? & _ & ?).
Qed.

Lemma fanout_passes fuel websocket text done rest w :
  connected_clients w = done ++ rest →
  NoDup (done ++ rest) →
  length rest < fuel →
  fanout fuel websocket text (length done) [] w =
    Some (mkWorld (done ++ (passes websocket (closed w) rest).1) (closed w)
            (wire w ++ ((λ c, (c, text)) <$> (passes websocket (closed w) rest).2))
            (rng w)).
Proof.
  revert done rest w. induction fuel as [|fuel IH]; intros done rest w Hw Hnd Hf; [lia|].
  assert (Hnext : ∀ c, S (length done) = length (done ++ [c]))
    by (intros; rewrite length_app; simpl; lia).
  destruct rest as [|c l'].
  - simpl. rewrite Hw, lookup_ge_None_2 by (rewrite length_app; simpl; lia).
    destruct w. simpl in *. subst. by rewrite !app_nil_r.
  - simpl fanout. rewrite Hw, list_lookup_middle by done.
    cbn [passes]. case_decide as Hself.
    + rewrite (Hnext c), (IH (done ++ [c]) l' w);
        [|by rewrite Hw, <- app_assoc|by rewrite <- app_assoc|simpl in Hf; lia].
      destruct (passes websocket (closed w) l') as [kept sent]. simpl.
      by rewrite <- app_assoc.
    + unfold send_text. case_decide as Hgone.
      * rewrite suspend_nil. simpl tl.
        assert (Hd : discard c w = set_clients (done ++ l') w).
        { unfold discard. rewrite decide_True by (rewrite Hw; set_solver).
          rewrite Hw, remove_first; [done|].
          apply NoDup_app in Hnd as (_ & Hdone & _).
          intros Hin. apply (Hdone c Hin). by left. }
        rewrite Hd. destruct l' as [|d l''].
        -- destruct fuel as [|fuel]; [simpl in Hf; lia|].
           simpl. rewrite lookup_ge_None_2 by (rewrite length_app; simpl; lia).
           by rewrite !app_nil_r.
        -- rewrite (Hnext d), (IH (done ++ [d]) l'' (set_clients (done ++ d :: l'') w)).
           ++ simpl. destruct (passes websocket (closed w) l'') as [kept sent].
              simpl. by rewrite <- app_assoc.
           ++ simpl. by rewrite <- app_assoc.
           ++ rewrite <- app_assoc. simpl.
              apply (sublist_NoDup _ (done ++ c :: d :: l'')); [exact Hnd|].
              apply sublist_app; [done|]. by apply sublist_cons.
           ++ simpl in Hf. lia.
      * rewrite suspend_nil. simpl tl.
        rewrite (Hnext c), (IH (done ++ [c]) l' (deliver c text w));
          [|by simpl; rewrite Hw, <- app_assoc|by rewrite <- app_assoc|simpl in Hf; lia].
        simpl. destruct (passes websocket (closed w) l') as [kept sent]. simpl.
        by rewrite <- !app_assoc.
Qed.

(** X9: on a registry without duplicates and with no other task acting,
    a chat turn does what [passes] says: every unreachable entry the
    loop comes to is removed, the entry right behind a removed one is
    passed over (it stays registered and gets no frame, whatever it is),
    every other entry than the sender's gets "User ➤ m" once, and the
    session goes on reading. *)
Theorem chat_turn_passes (websocket : WebSocket) (data : str) (w : World) :
  is_command data = false →
  NoDup (connected_clients w) →
  turn websocket (Text data) [] w =
    Some (Reading,
          mkWorld (passes websocket (closed w) (connected_clients w)).1 (closed w)
            (wire w ++
               (chat_frame data <$>
                  (passes websocket (closed w) (connected_clients w)).2))
            (rng w)).
Proof.
  intros Hc Hnd. unfold turn, on_text. rewrite Hc.
  change 0 with (length (@nil nat)).
  rewrite (fanout_passes _ _ _ [] (connected_clients w)); [done|done|done|].
  unfold rounds. change (length (@nil nat)) with 0. lia.
Qed.

Lemma clients_discard_ext c w1 w2 :
  connected_clients w1 = connected_clients w2 →
  connected_clients (discard c w1) = connected_clients (discard c w2).
Proof.
  intros E. unfold discard. rewrite E.
  case_decide; [|done]. by destruct (remove c (connected_clients w2)).
Qed.

Lemma clients_events_ext es w1 w2 :
  connected_clients w1 = connected_clients w2 →
  connected_clients (events es w1) = connected_clients (events es w2).
Proof.
  intros E. induction es as [|e es IH] using rev_ind; [done|].
  rewrite !events_snoc. destruct e as [c|c|c]; simpl.
  - by rewrite IH.
  - unfold on_disconnect. by apply clients_discard_ext.
  - done.
Qed.

(** X10: the private reply to a command is the one send of the loop
    whose failure is not caught on the spot. When the peer of the sender
    is gone, nothing is sent, the exception reaches the handler of the
    session, the session ends and the sender is unregistered as on a
    disconnect; when the peer is there, the session goes on reading and
    the turn itself leaves the registry alone. *)
Theorem reply_failure_ends_session (websocket : WebSocket) (data : str)
    (sched : Schedule) (w : World) :
  is_command data = true →
  ∃ st w',
    turn websocket (Text data) sched w = Some (st, w') ∧
    (websocket ∈ closed w →
       st = Disconnected ∧ wire w' = wire w ∧
       connected_clients w' =
         connected_clients (on_disconnect websocket (suspend sched w))) ∧
    (websocket ∉ closed w →
       st = Reading ∧
       connected_clients w' = connected_clients (suspend sched w)).
Proof.
  intros Hc. unfold turn, on_text. rewrite Hc.
  destruct (handle_command data (rng w)) as [response g].
  generalize (lit "Device " ++ [ARROW] ++ lit " " ++ response). intros text.
  unfold send_text. simpl closed. case_decide as Hgone; simpl.
  - eexists _, _. split; [done|]. split; [|done]. intros _.
    split; [done|]. unfold on_disconnect.
    split; [by rewrite wire_discard, wire_suspend|].
    by apply clients_discard_ext, clients_events_ext.
  - eexists _, _. split; [done|]. split; [done|]. intros _.
    split; [done|]. by apply clients_events_ext.
Qed.

(** ** Who can get a frame *)

Lemma clients_discard_elem c x w :
  x ∈ connected_clients (discard c w) → x ∈ connected_clients w.
Proof.
  unfold discard. case_decide as Hin; [|done].
  destruct (remove_elem_of _ _ Hin) as (l1 & l2 & E & _ & ->). simpl.
  rewrite E. intros [?|?]%elem_of_app; apply elem_of_app; [by left|].
  right. by right.
Qed.

Lemma clients_events_from es w c :
  c ∈ connected_clients (events es w) →
  c ∈ connected_clients w ∨ c ∈ accepted es.
Proof.
  induction es as [|e es IH] using rev_ind; [by left|].
  rewrite events_snoc. unfold accepted. rewrite omap_app.
  destruct e as [c'|c'|c']; simpl.
  - intros [Hc| ->%list_elem_of_singleton]%elem_of_app.
    + destruct (IH Hc) as [?|?]; [by left|]. right. apply elem_of_app. by left.
    + right. apply elem_of_app. right. by left.
  - intros Hc%clients_discard_elem. rewrite app_nil_r. by apply IH.
  - rewrite app_nil_r. apply IH.
Qed.

Lemma clients_suspend_from sched w c :
  c ∈ connected_clients (suspend sched w) →
  (c ∈ connected_clients w ∨ c ∈ accepted (concat sched)) ∧
  ∀ x, x ∈ accepted (concat (tl sched)) → x ∈ accepted (concat sched).
Proof.
  intros Hc. destruct sched as [|es sched]; [by split; [left|]|].
  simpl. unfold accepted. rewrite omap_app. split.
  - destruct (clients_events_from es w c Hc) as [?|?]; [by left|].
    right. apply elem_of_app. by left.
  - intros x Hx. apply elem_of_app. by right.
Qed.

Lemma fanout_recipients fuel websocket text i sched w w' :
  fanout fuel websocket text i sched w = Some w' →
  ∃ new, wire w' = wire w ++ new ∧
    Forall (λ frame, frame.1 ∈ connected_clients w ∨
                     frame.1 ∈ accepted (concat sched)) new.
Proof.
  revert i sched w. induction fuel as [|fuel IH]; intros i sched w Hf; [done|].
  simpl in Hf. destruct (connected_clients w !! i) as [client|] eqn:Hi.
  - apply list_elem_of_lookup_2 in Hi.
    case_decide as Hself; [by eapply IH|].
    assert (Hlater : ∀ w1 x,
      connected_clients w1 = connected_clients w →
      x ∈ connected_clients (suspend sched w1) ∨ x ∈ accepted (concat (tl sched)) →
      x ∈ connected_clients w ∨ x ∈ accepted (concat sched)).
    { intros w1 x E [Hx|Hx].
      - destruct (clients_suspend_from sched w1 x Hx) as [Hfrom _].
        by rewrite E in Hfrom.
      - right. destruct sched as [|es sched]; [done|].
        simpl. unfold accepted. rewrite omap_app. apply elem_of_app. by right. }
    unfold send_text in Hf. case_decide.
    + apply IH in Hf as (new & -> & Hnew).
      exists new. rewrite wire_discard, wire_suspend. split; [done|].
      eapply Forall_impl; [exact Hnew|]. intros frame [Hx|Hx].
      * apply (Hlater w); [done|]. left. by apply clients_discard_elem in Hx.
      * apply (Hlater w); [done|]. by right.
    + apply IH in Hf as (new & -> & Hnew).
      exists ((client, text) :: new). rewrite wire_suspend. simpl.
      rewrite <- app_assoc. split; [done|]. constructor; [by left|].
      eapply Forall_impl; [exact Hnew|]. intros frame Hx.
      by apply (Hlater (deliver client text w)).
  - injection Hf as <-. exists []. by rewrite app_nil_r.
Qed.

(** X13: whatever the other tasks do, the frames of a turn of the
    session loop go to the connection of the session itself (the reply
    to a command) or to connections that were registered when the turn
    began or were accepted during it; nothing goes to a connection the
    registry has never held. *)
Theorem turn_recipients_registered (websocket : WebSocket) (data : str)
    (sched : Schedule) (w : World) :
  ∃ st w' new,
    turn websocket (Text data) sched w = Some (st, w') ∧
    wire w' = wire w ++ new ∧
    Forall (λ frame, frame.1 = websocket ∨
                     frame.1 ∈ connected_clients w ∨
                     frame.1 ∈ accepted (concat sched)) new.
Proof.
  unfold turn. destruct (is_command data) eqn:Hc.
  - unfold on_text. rewrite Hc.
    destruct (handle_command data (rng w)) as [response g].
    generalize (lit "Device " ++ [ARROW] ++ lit " " ++ response). intros text.
    unfold send_text. simpl closed. case_decide as Hgone; simpl.
    + eexists _, _, []. split; [done|]. unfold on_disconnect.
      by rewrite wire_discard, wire_suspend, app_nil_r.
    + eexists _, _, [(websocket, text)]. split; [done|].
      rewrite wire_suspend. split; [done|]. constructor; [by left|done].
  - destruct (on_text_chat_returns websocket data sched w Hc) as [w' Hw'].
    rewrite Hw'. simpl. unfold on_text in Hw'. rewrite Hc in Hw'.
    destruct (fanout _ _ _ _ _ _) as [w''|] eqn:Hf; [|done].
    injection Hw' as ->.
    apply fanout_recipients in Hf as (new & Hw & Hnew).
    exists Reading, w', new. split; [done|]. split; [done|].
    eapply Forall_impl; [exact Hnew|]. intros frame ?. by right.
Qed.

(** ** More on the device simulator *)

Lemma lstrip_space_app a s :
  Forall (λ c, isspace c = true) a → lstrip (a ++ s) = lstrip s.
Proof. induction 1 as [|c a Hc _ IH]; [done|]. simpl. by rewrite Hc. Qed.

Lemma rstrip_all_space b : Forall (λ c, isspace c = true) b → rstrip b = [].
Proof. induction 1 as [|c b Hc _ IH]; [done|]. simpl. by rewrite IH, Hc. Qed.

Lemma rstrip_app_space s b :
  Forall (λ c, isspace c = true) b → rstrip (s ++ b) = rstrip s.
Proof.
  intros Hb. induction s as [|c s IH]; [by apply rstrip_all_space|].
  simpl. by rewrite IH.
Qed.

Lemma strip_padded a s b :
  Forall (λ c, isspace c = true) a → Forall (λ c, isspace c = true) b →
  strip (a ++ s ++ b) = strip s.
Proof.
  intros Ha Hb. unfold strip.
  by rewrite lstrip_space_app, <- lstrip_rstrip, rstrip_app_space, lstrip_rstrip.
Qed.

Lemma lstrip_idemp s : lstrip (lstrip s) = lstrip s.
Proof.
  induction s as [|c s IH]; [done|].
  simpl. destruct (isspace c) eqn:Hc; [done|]. simpl. by rewrite Hc.
Qed.

Lemma strip_idemp s : strip (strip s) = strip s.
Proof.
  unfold strip. by rewrite <- lstrip_rstrip, rstrip_idemp, lstrip_rstrip, lstrip_idemp.
Qed.

(** X11: white space around a message does not matter to the device
    simulator nor to the test of the session loop for a command: padded
    at both ends with any white space, a text gets the same answer and
    the same classification. *)
Theorem surrounding_space_ignored (a b command : str) (g : Rng) :
  Forall (λ c, isspace c = true) a →
  Forall (λ c, isspace c = true) b →
  handle_command (a ++ command ++ b) g = handle_command command g ∧
  is_command (a ++ command ++ b) = is_command command.
Proof.
  intros Ha Hb. unfold handle_command, normalise, is_command.
  by rewrite strip_padded.
Qed.

(** X12: the prefix is optional for the device simulator: a text that
    does not itself begin with "/device" gets, behind the prefix in any
    case, the answer it gets on its own. *)
Theorem prefix_optional (p r : str) (g : Rng) :
  ascii_lower <$> p = lit "/device" →
  is_command r = false →
  handle_command (p ++ r) g = handle_command r g.
Proof.
  intros Hp Hr. unfold handle_command.
  rewrite normalise_prefixed by done.
  unfold normalise. unfold is_command in Hr. by rewrite Hr, strip_idemp.
Qed.

(** ** Registering a connection twice *)

Lemma accept_connecting c s :
  state_of c s = CONNECTING →
  accept c s =
    (Entered, mkServer (world s) (<[c := CONNECTED]> (application_state s))).
Proof. intros E. unfold accept. by rewrite E. Qed.

Lemma accept_answered c s :
  state_of c s ≠ CONNECTING → accept c s = (RuntimeError, s).
Proof. intros E. unfold accept. by destruct (state_of c s). Qed.

Lemma enter_answered c s :
  state_of c s ≠ CONNECTING → enter c s = (RuntimeError, s).
Proof. intros E. unfold enter. by rewrite accept_answered. Qed.

Lemma state_of_insert c x s w :
  state_of x (mkServer w (<[c := CONNECTED]> (application_state s))) =
  if decide (x = c) then CONNECTED else state_of x s.
Proof.
  unfold state_of. simpl. case_decide as E.
  - subst. by rewrite lookup_insert_eq.
  - by rewrite lookup_insert_ne.
Qed.



Lemma serve_snoc tr e s : serve (tr ++ [e]) s = served e (serve tr s).
Proof. unfold serve. by rewrite foldl_app. Qed.




(** The connections whose state has left [CONNECTING] are accepted ones. *)
Lemma serve_answered_accepted tr g c :
  state_of c (serve tr (boot g)) ≠ CONNECTING → c ∈ accepted tr.
Proof.
  induction tr as [|e tr IH] using rev_ind; [done|].
  rewrite serve_snoc. unfold accepted in *. rewrite omap_app.
  destruct e as [c'|c'|c']; simpl; rewrite ?app_nil_r; try done.
  destruct (decide (state_of c' (serve tr (boot g)) = CONNECTING)) as [E|E].
  - unfold enter. rewrite accept_connecting by done. simpl.
    rewrite state_of_insert. case_decide as Hc.
    + intros _. subst. apply elem_of_app. right. by left.
    + intros H. apply elem_of_app. left. by apply IH.
  - rewrite enter_answered by done. intros H. apply elem_of_app. left. by apply IH.
Qed.

(** On a trace that accepts every connection once, the server's shared
    state is the one of the events on the shared state alone. *)
Lemma serve_fresh_events tr g :
  NoDup (accepted tr) → world (serve tr (boot g)) = events tr (initial g).
Proof.
  induction tr as [|e tr IH] using rev_ind; intros Hnd; [done|].
  unfold accepted in Hnd. rewrite omap_app in Hnd.
  apply NoDup_app in Hnd as (Hnd & Hfresh & _).
  rewrite serve_snoc, events_snoc, <- IH by done.
  destruct e as [c|c|c]; simpl; try done.
  destruct (decide (state_of c (serve tr (boot g)) = CONNECTING)) as [E|E].
  - unfold enter. by rewrite accept_connecting.
  - apply serve_answered_accepted in E. destruct (Hfresh c E). by left.
Qed.


End Python.

(** ** Closed instances *)

(** A decidable statement about closed terms, settled by evaluation. *)
Ltac by_evaluation := apply (bool_decide_unpack _); vm_compute; exact I.

(** The scenario of the specification: A (1) connects, B (2) connects, A
    sends "hello"; B gets "User ➤ hello" and A gets nothing. *)
Lemma chat_reaches_all_but_sender_witness :
  let w := events [Connect 1; Connect 2] (initial []) in
  is_command unfolded (lit "hello") = false ∧
  ∃ w',
    turn unfolded 1 (Text (lit "hello")) [] w = Some (Reading, w') ∧
    wire w' = [(2, lit "User " ++ [ARROW] ++ lit " hello")] ∧
    connected_clients w' = [1; 2].
Proof.
  intros w.
  assert (Hc : is_command unfolded (lit "hello") = false)
    by (vm_compute; reflexivity).
  split; [exact Hc|].
  destruct (chat_reaches_all_but_sender unfolded 1 (lit "hello") Hc) as [_ H].
  destruct (H w) as (w' & Ht & Hw & Hr & _).
  - by_evaluation.
  - by_evaluation.
  - intros c _. apply not_elem_of_empty.
  - exists w'. split; [exact Ht|]. split; [exact Hw|exact Hr].
Defined.

(** The scenario goes on: A sends "/device status" and the generator
    draws 7; A alone gets the reading. *)
Lemma command_reply_private_witness :
  let w := set_rng [7%N] (events [Connect 1; Connect 2] (initial [])) in
  is_command unfolded (lit "/device status") = true ∧
  ∃ st w',
    turn unfolded 1 (Text (lit "/device status")) [] w = Some (st, w') ∧
    wire w' =
      [(1, lit "Device " ++ [ARROW] ++ lit " Current sensor reading is 7.")].
Proof.
  intros w.
  assert (Hc : is_command unfolded (lit "/device status") = true)
    by (vm_compute; reflexivity).
  split; [exact Hc|].
  destruct (command_reply_private unfolded 1 (lit "/device status") [] w Hc)
    as (st & w' & Ht & Hw & _).
  exists st, w'. split; [exact Ht|]. rewrite Hw. vm_compute. reflexivity.
Defined.

(** And ends: A disconnects and the registry holds B alone. *)
Lemma registry_membership_witness :
  let tr := [Connect 1; Connect 2; Disconnect 1] in
  NoDup (accepted tr) ∧
  registry_after tr [] = [2] ∧
  NoDup (registry_after tr []) ∧
  (2 ∈ registry_after tr [] ↔ live_after tr 2) ∧
  (1 ∈ registry_after tr [] ↔ live_after tr 1).
Proof.
  intros tr.
  assert (Hnd : NoDup (accepted tr)) by by_evaluation.
  split; [exact Hnd|]. split; [reflexivity|].
  destruct (registry_membership tr [] Hnd) as [H1 H2].
  split; [exact H1|]. split; [exact (H2 2)|exact (H2 1)].
Defined.

Lemma unknown_command_echo_witness :
  (normalise unfolded (lit "/device  Reboot now ") ∉ recognised) ∧
  handle_command unfolded (lit "/device  Reboot now ") [] =
    (lit "Unknown device command: 'reboot now'.", []).
Proof.
  assert (Hn : normalise unfolded (lit "/device  Reboot now ") ∉ recognised)
    by by_evaluation.
  split; [exact Hn|].
  destruct (unknown_command_echo unfolded (lit "/device  Reboot now ") [] Hn)
    as [H _].
  rewrite H. vm_compute. reflexivity.
Defined.

Lemma handle_command_draws_for_status_only_witness :
  normalise unfolded (lit "/device stop") ≠ lit "status" ∧
  (handle_command unfolded (lit "/device stop") [7%N]).1 =
    (handle_command unfolded (lit "/device stop") [42%N]).1 ∧
  normalise unfolded (lit "/device STATUS") = lit "status" ∧
  handle_command unfolded (lit "/device STATUS") [7%N; 42%N] =
    (lit "Current sensor reading is 7.", [42%N]).
Proof.
  assert (H1 : normalise unfolded (lit "/device stop") ≠ lit "status")
    by (vm_compute; discriminate).
  assert (H2 : normalise unfolded (lit "/device STATUS") = lit "status")
    by (vm_compute; reflexivity).
  split; [exact H1|].
  split.
  - exact (proj1 (proj1 (handle_command_draws_for_status_only unfolded
        (lit "/device stop") [7%N] [42%N]) H1)).
  - split; [exact H2|].
    rewrite (proj2 (handle_command_draws_for_status_only unfolded
        (lit "/device STATUS") [7%N; 42%N] []) H2).
    vm_compute. reflexivity.
Defined.

Lemma prefix_stripped_once_then_folded_witness :
  ascii_lower <$> lit "/Device" = lit "/device" ∧
  normalise unfolded (lit "/Device" ++ lit "  /device STATUS ") =
    lit "/device status" ∧
  handle_command unfolded (lit " /DEVICE Stop") [] =
    handle_command unfolded (lit " /device stop") [].
Proof.
  assert (Hp : ascii_lower <$> lit "/Device" = lit "/device")
    by (vm_compute; reflexivity).
  destruct (prefix_stripped_once_then_folded unfolded) as (H1 & H2 & _).
  split; [exact Hp|]. split.
  - rewrite (H1 _ (lit "  /device STATUS ") Hp). vm_compute. reflexivity.
  - apply H2; [by_evaluation|by_evaluation|vm_compute; reflexivity].
Defined.

(** C8 as stated fails: the user wrote "Foo", the answer echoes "foo" and
    does not contain "Foo". *)
Lemma unknown_command_not_verbatim :
  (∀ ul, subcommand ul (lit "/device Foo") = lit "Foo") ∧
  (∀ ul g, handle_command ul (lit "/device Foo") g =
     (lit "Unknown device command: 'foo'.", g)) ∧
  contains (lit "Unknown device command: 'foo'.") (lit "Foo") = false.
Proof.
  split; [|split]; intros; vm_compute; reflexivity.
Qed.

(** C9 as stated fails: two calls with the same text, "status", give two
    different answers, and the first call changes the generator. *)
Lemma status_differs_between_calls :
  (∀ ul, handle_command ul (lit "status") [7%N; 42%N] =
     (lit "Current sensor reading is 7.", [42%N])) ∧
  (∀ ul, handle_command ul (lit "status") [42%N] =
     (lit "Current sensor reading is 42.", [])) ∧
  lit "Current sensor reading is 7." ≠ lit "Current sensor reading is 42.".
Proof.
  split; [|split]; intros; vm_compute; (reflexivity || discriminate).
Qed.

(** The premise of the registry theorem is needed: were one identity
    accepted twice, its disconnection would leave the second entry. The
    append of line 117 does not look for the connection; it is the
    framework's [accept] that turns a second entry away (see [enter]). *)
Lemma registry_needs_distinct_identities :
  registry_after [Connect 1; Connect 1; Disconnect 1] [] = [1] ∧
  ¬ live_after [Connect 1; Connect 1; Disconnect 1] 1.
Proof.
  split; [reflexivity|].
  intros (pre & post & E & Hn).
  destruct pre as [|e1 [|e2 [|e3 [|e4 pre]]]]; simplify_eq/=;
    apply Hn; set_solver.
Qed.

(** ** Closed instances of the further properties *)

Lemma discard_first_entry_witness :
  let w := mkWorld [1; 2; 3; 2] ∅ [] [] in
  2 ∈ connected_clients w ∧
  connected_clients (discard 2 w) = [1; 3; 2].
Proof.
  intros w. assert (Hin : 2 ∈ connected_clients w) by by_evaluation.
  split; [exact Hin|].
  destruct (discard_first_entry 2 w Hin) as (l1 & l2 & _ & _ & _ & _ & _).
  reflexivity.
Defined.

Lemma accept_then_disconnect_witness :
  let w := mkWorld [1; 2] ∅ [] [] in
  (3 ∉ connected_clients w) ∧ on_disconnect 3 (on_accept 3 w).2 = w.
Proof.
  intros w. assert (Hn : 3 ∉ connected_clients w) by by_evaluation.
  split; [exact Hn|]. exact (accept_then_disconnect 3 w Hn).
Defined.

Lemma disconnect_idempotent_witness :
  let w := mkWorld [1; 2; 3] ∅ [] [] in
  NoDup (connected_clients w) ∧
  connected_clients (on_disconnect 2 w) = [1; 3] ∧
  discard 2 (on_disconnect 2 w) = on_disconnect 2 w.
Proof.
  intros w. assert (Hnd : NoDup (connected_clients w)) by by_evaluation.
  split; [exact Hnd|].
  destruct (disconnect_idempotent 2 w Hnd) as (H1 & _ & H3).
  split; [rewrite H1; reflexivity|exact H3].
Defined.

Lemma fanout_ends_witness :
  let w := mkWorld [1; 2; 3] ∅ [] [] in
  length (connected_clients w) + connects [[Connect 9]] - 0 < 5 ∧
  ∃ w',
    fanout 5 1 (lit "hello") 0 [[Connect 9]] w = Some w' ∧
    fanout (5 + 10) 1 (lit "hello") 0 [[Connect 9]] w = Some w'.
Proof.
  intros w.
  assert (Hf : length (connected_clients w) + connects [[Connect 9]] - 0 < 5)
    by by_evaluation.
  split; [exact Hf|].
  exact (fanout_ends 5 10 1 (lit "hello") 0 [[Connect 9]] w Hf).
Defined.

(** 2 and 3 are gone: 2 is removed, 3 is passed over and stays, 4 and 5
    get the message. *)
Lemma chat_turn_passes_witness :
  let w := mkWorld [1; 2; 3; 4; 5] {[2; 3]} [] [] in
  is_command unfolded (lit "hello") = false ∧
  NoDup (connected_clients w) ∧
  turn unfolded 1 (Text (lit "hello")) [] w =
    Some (Reading,
          mkWorld [1; 3; 4; 5] {[2; 3]}
            (chat_frame (lit "hello") <$> [4; 5]) []).
Proof.
  intros w.
  assert (Hc : is_command unfolded (lit "hello") = false)
    by (vm_compute; reflexivity).
  assert (Hnd : NoDup (connected_clients w)) by by_evaluation.
  split; [exact Hc|]. split; [exact Hnd|].
  rewrite (chat_turn_passes unfolded 1 (lit "hello") w Hc Hnd).
  vm_compute. reflexivity.
Defined.

Lemma reply_failure_ends_session_witness :
  let w := mkWorld [1; 2] {[1]} [] [] in
  is_command unfolded (lit "/device start") = true ∧
  ∃ w',
    turn unfolded 1 (Text (lit "/device start")) [] w = Some (Disconnected, w') ∧
    wire w' = [] ∧ connected_clients w' = [2].
Proof.
  intros w.
  assert (Hc : is_command unfolded (lit "/device start") = true)
    by (vm_compute; reflexivity).
  split; [exact Hc|].
  destruct (reply_failure_ends_session unfolded 1 (lit "/device start") [] w Hc)
    as (st & w' & Ht & Hgone & _).
  destruct Hgone as (-> & Hw & Hr); [by_evaluation|].
  exists w'. split; [exact Ht|]. split; [exact Hw|]. rewrite Hr. reflexivity.
Defined.

Lemma surrounding_space_ignored_witness :
  Forall (λ c, isspace c = true) (lit "  ") ∧
  Forall (λ c, isspace c = true) [10%N; 0xa0%N] ∧
  handle_command unfolded (lit "  " ++ lit "/device stop" ++ [10%N; 0xa0%N]) [] =
    (lit "Device has been stopped.", []).
Proof.
  assert (Ha : Forall (λ c, isspace c = true) (lit "  ")) by by_evaluation.
  assert (Hb : Forall (λ c, isspace c = true) [10%N; 0xa0%N]) by by_evaluation.
  split; [exact Ha|]. split; [exact Hb|].
  rewrite (proj1 (surrounding_space_ignored unfolded _ _ (lit "/device stop") []
                    Ha Hb)).
  vm_compute. reflexivity.
Defined.

Lemma prefix_optional_witness :
  ascii_lower <$> lit "/DEVICE" = lit "/device" ∧
  is_command unfolded (lit " Stop") = false ∧
  handle_command unfolded (lit "/DEVICE" ++ lit " Stop") [] =
    handle_command unfolded (lit " Stop") [].
Proof.
  assert (Hp : ascii_lower <$> lit "/DEVICE" = lit "/device")
    by (vm_compute; reflexivity).
  assert (Hr : is_command unfolded (lit " Stop") = false)
    by (vm_compute; reflexivity).
  split; [exact Hp|]. split; [exact Hr|].
  exact (prefix_optional unfolded (lit "/DEVICE") (lit " Stop") [] Hp Hr).
Defined.


Lemma sensor_pass_prunes_unreachable_witness :
  let w := mkWorld [1; 2; 3] {[2]} [] [7%N] in
  NoDup (connected_clients w) ∧
  device_sensor_broadcast [] w =
    mkWorld [1; 3] {[2]}
      [(1, lit "Sensor reading: 7"); (3, lit "Sensor reading: 7")] [].
Proof.
  intros w. assert (Hnd : NoDup (connected_clients w)) by by_evaluation.
  split; [exact Hnd|].
  rewrite (sensor_pass_prunes_unreachable w Hnd). vm_compute. reflexivity.
Defined.
